(** * bigcyc: the filter-and-aggregate pipeline of [app.py]

    [app.py] is a linear script: it loads a CSV file into a pandas table,
    filters the rows by three sidebar selections, computes one aggregate
    per chart and offers the filtered rows for download.  This file embeds
    the filter (lines 58-64) and the aggregates (lines 71, 84-85, 91-93,
    107-112) as list functions and proves the properties the
    specification states about them.

    Conventions of the embedding:
    - a Python [str] is the list of its Unicode code points;
    - a cell that pandas holds as NaN (a missing value) is [None];
    - the columns Job Title, Industry, Location, Skills and Date hold
      text and Salary holds numbers, as in the data model of the
      specification;
    - [Salary] is a rational number: the arithmetic of the aggregates is
      exact, the rounding of 64-bit floats is not modelled;
    - a table is the list of its rows, in index order;
    - pandas and standard-library calls ([isin], [unique], [groupby],
      [value_counts], [sort_values], [Counter.most_common], [str.strip],
      [str.split]) are written out as the list functions they compute;
      the date parser [pd.to_datetime] is a parameter. *)

From Stdlib Require Import ZArith NArith QArith Qcanon String Ascii Lia.
From stdpp Require Import base decidable option list numbers sorting.

Local Open Scope nat_scope.

(** ** Strings *)

Definition char := N.
Definition str := list char.

(** [py "text"] is the Python string written with the ASCII literal
    ["text"]. *)
Definition py (s : string) : str :=
  List.map N_of_ascii (list_ascii_of_string s).

(** ** The loaded table *)

(** One row of [AI_Job_Market_Trends.csv].  [Date] is the raw text of the
    optional Date column; it is parsed only by the monthly trend. *)
Record Row := mkRow {
  JobTitle : option str;
  Industry : option str;
  Location : option str;
  Salary : option Qc;
  Skills : option str;
  Date : option str
}.

Abbreviation DataFrame := (list Row).

(** ** Filter engine (lines 54-64) *)

(** [Series.unique()]: the distinct values in order of first appearance,
    NaN included. *)
Fixpoint unique_from (seen : list (option str)) (l : list (option str))
  : list (option str) :=
  match l with
  | [] => []
  | x :: l' =>
      if decide (x ∈ seen) then unique_from seen l'
      else x :: unique_from (x :: seen) l'
  end.

Definition unique (l : list (option str)) : list (option str) :=
  unique_from [] l.

(** Truth value of a Python list in [if selected:]. *)
Definition truthy {A} (l : list A) : bool :=
  match l with [] => false | _ :: _ => true end.

(** [frame[frame[col].isin(selected)]]: boolean-mask indexing keeps the
    rows whose cell is one of the selected values, in order.  pandas'
    [isin] matches NaN with NaN. *)
Definition isin_rows (col : Row → option str) (selected : list (option str))
    (frame : DataFrame) : DataFrame :=
  filter (λ r, col r ∈ selected) frame.

(** Lines 58-64. *)
Definition filtered_df (df : DataFrame)
    (selected_job selected_industry selected_location : list (option str))
    : DataFrame :=
  let f0 := df in
  let f1 := if truthy selected_job
            then isin_rows JobTitle selected_job f0 else f0 in
  let f2 := if truthy selected_industry
            then isin_rows Industry selected_industry f1 else f1 in
  let f3 := if truthy selected_location
            then isin_rows Location selected_location f2 else f2 in
  f3.

(** The specification's wording of the filter: a row passes a dimension
    when the selection is empty or holds the row's value. *)
Definition passes (selected : list (option str)) (v : option str) : Prop :=
  selected = [] ∨ v ∈ selected.

Definition row_passes (sj si sl : list (option str)) (r : Row) : Prop :=
  passes sj (JobTitle r) ∧ passes si (Industry r) ∧ passes sl (Location r).

#[global] Instance passes_dec sel v : Decision (passes sel v).
Proof. unfold passes. apply _. Defined.

#[global] Instance row_passes_dec sj si sl r : Decision (row_passes sj si sl r).
Proof. unfold row_passes. apply _. Defined.

(** ** Sorting primitive *)

(** A stable sort, the behaviour of Python's [sorted] and of
    [heapq.nlargest]: [insert_by le x l] puts [x] in front of the first
    element [y] with [le x y], so among elements that compare equal the
    one that stood first stays first. *)
Fixpoint insert_by {A} (le : A → A → bool) (x : A) (l : list A) : list A :=
  match l with
  | [] => [x]
  | y :: l' => if le x y then x :: y :: l' else y :: insert_by le x l'
  end.

Definition stable_sort {A} (le : A → A → bool) (l : list A) : list A :=
  foldr (insert_by le) [] l.

(** What stability means: [T] is a "stood before" relation on the
    input; in the output [a] precedes [b] only if [le a b], and when they
    compare equal only if [a] stood before [b]. *)
Definition ordered {A} (le : A → A → bool) (T : relation A) (a b : A) : Prop :=
  le a b = true ∧ (le b a = true → T a b).

(** ** Top-10 skills (lines 91-93) *)

(** [str.isspace] of one character: the code points Python treats as
    whitespace. *)
Definition isspace (c : char) : bool :=
  ((9 <=? c) && (c <=? 13) || (28 <=? c) && (c <=? 32)
   || (c =? 133) || (c =? 160) || (c =? 5760)
   || (8192 <=? c) && (c <=? 8202)
   || (c =? 8232) || (c =? 8233) || (c =? 8239) || (c =? 8287)
   || (c =? 12288))%N.

Fixpoint lstrip (s : str) : str :=
  match s with
  | [] => []
  | c :: s' => if isspace c then lstrip s' else s
  end.

Definition rstrip (s : str) : str := reverse (lstrip (reverse s)).

(** [s.strip()] *)
Definition strip (s : str) : str := rstrip (lstrip s).

Definition comma : char := 44%N.

(** [x.split(sep)] for a one-character separator; the result is never
    empty, and [split sep ""] is [[""]]. *)
Fixpoint split (sep : char) (x : str) : list str :=
  match x with
  | [] => [[]]
  | c :: x' =>
      if decide (c = sep) then [] :: split sep x'
      else match split sep x' with
           | tok :: rest => (c :: tok) :: rest
           | [] => [[c]]
           end
  end.

(** [sep.join(pieces)], the inverse of [split]. *)
Fixpoint join (sep : char) (pieces : list str) : str :=
  match pieces with
  | [] => []
  | [u] => u
  | u :: rest => u ++ sep :: join sep rest
  end.

(** Line 91: [filtered_df['Skills'].dropna().apply(lambda x: [s.strip()
    for s in x.split(',')])]. *)
Definition skills_series (view : DataFrame) : list (list str) :=
  (λ x, strip <$> split comma x) <$> omap Skills view.

(** Line 92: the flattened token stream. *)
Definition all_skills (view : DataFrame) : list str :=
  mjoin (skills_series view).

(** [collections.Counter]: a dict from token to count; iteration follows
    insertion order, so it is an association list that a new key
    extends at the end. *)
Fixpoint counter_add (x : str) (c : list (str * nat)) : list (str * nat) :=
  match c with
  | [] => [(x, 1)]
  | (k, n) :: c' =>
      if decide (k = x) then (k, S n) :: c' else (k, n) :: counter_add x c'
  end.

Definition Counter (l : list str) : list (str * nat) :=
  foldl (λ c x, counter_add x c) [] l.

(** Order of [heapq.nlargest(n, items, key=itemgetter(1))]: larger count
    first. *)
Definition count_ge (a b : str * nat) : bool := bool_decide (b.2 ≤ a.2).

(** [Counter.most_common(n)], that is
    [sorted(items, key=itemgetter(1), reverse=True)[:n]]. *)
Definition most_common (n : nat) (c : list (str * nat)) : list (str * nat) :=
  take n (stable_sort count_ge c).

(** Line 93. *)
Definition top_skills (view : DataFrame) : list (str * nat) :=
  most_common 10 (Counter (all_skills view)).

(** Vocabulary of the statements: occurrences of a token, position of
    its first occurrence, duplicate-free list of first occurrences. *)
Definition occurrences (x : str) (l : list str) : nat :=
  length (filter (λ y, y = x) l).

Fixpoint first_index (x : str) (l : list str) : nat :=
  match l with
  | [] => 0
  | y :: l' => if decide (y = x) then 0 else S (first_index x l')
  end.

Fixpoint nub (l : list str) : list str :=
  match l with
  | [] => []
  | x :: l' => x :: filter (λ y, y ≠ x) (nub l')
  end.


(** ** Job count by location (lines 84-85) *)

(** [Series.value_counts()]: missing values are dropped, the distinct
    values are counted in order of first appearance and sorted by count,
    largest first (equal counts are kept in that order, the order of a
    stable sort).  Lines 84-85 turn the result into the two-column table
    [Location], [Count]. *)
Definition value_counts (col : list (option str)) : list (str * nat) :=
  stable_sort count_ge (Counter (omap id col)).

Definition loc_count (view : DataFrame) : list (str * nat) :=
  value_counts (Location <$> view).

(** ** Mean salary by job title (line 71) *)

(** Python's order on strings: lexicographic on code points. *)
Fixpoint str_leb (a b : str) : bool :=
  match a, b with
  | [], _ => true
  | _ :: _, [] => false
  | x :: a', y :: b' =>
      if (x <? y)%N then true
      else if (y <? x)%N then false
      else str_leb a' b'
  end.

Definition Qc_sum (xs : list Qc) : Qc := foldr Qcplus 0%Qc xs.

(** [Series.mean()]: missing values are skipped; the mean of no value is
    NaN. *)
Definition mean (xs : list (option Qc)) : option Qc :=
  match omap id xs with
  | [] => None
  | v :: vs =>
      Some (Qc_sum (v :: vs) / Qc_of_Z (Z.of_nat (length (v :: vs))))%Qc
  end.

(** The rows of one group. *)
Definition group_rows (key : Row → option str) (k : str) (view : DataFrame)
    : DataFrame :=
  filter (λ r, key r = Some k) view.

(** [view.groupby(key)['Salary'].mean()]: rows with a missing key form no
    group ([dropna=True]); the groups come sorted by key ([sort=True]). *)
Definition groupby_mean (key : Row → option str) (view : DataFrame)
    : list (str * option Qc) :=
  (λ k, (k, mean (Salary <$> group_rows key k view)))
    <$> stable_sort str_leb (nub (omap key view)).

Definition val_le (a b : str * Qc) : bool := bool_decide (a.2 ≤ b.2)%Qc.

(** [Series.sort_values(ascending=False)] as pandas' [nargsort] does it:
    the non-missing entries are reversed, sorted ascending and reversed
    again, and the missing ones are put last.  (The default sort kind
    leaves the order of equal values open on long inputs; the model takes
    the stable order.) *)
Definition sort_values_desc (s : list (str * option Qc))
    : list (str * option Qc) :=
  let non_nans := omap (λ e : str * option Qc, (λ m, (e.1, m)) <$> e.2) s in
  let nans := filter (λ e : str * option Qc, e.2 = None) s in
  ((λ e : str * Qc, (e.1, Some e.2))
     <$> reverse (stable_sort val_le (reverse non_nans)))
  ++ nans.

(** The order of the result, as a relation between an earlier and a
    later entry: decreasing values first, missing values last. *)
Definition desc (a b : str * option Qc) : Prop :=
  match a.2, b.2 with
  | Some x, Some y => (y ≤ x)%Qc
  | None, Some _ => False
  | _, None => True
  end.

(** Line 71. *)
Definition avg_salary_by_job (view : DataFrame) : list (str * option Qc) :=
  sort_values_desc (groupby_mean JobTitle view).

(** ** Data of the box plot (line 78) *)

(** The (Industry, Salary) pairs of the view, the data that line 78
    hands to [px.box(filtered_df, x='Industry', y='Salary')].  This is
    the argument of the call, not the call: what the plotting library
    does with it is not modelled. *)
Definition box_points (view : DataFrame) : list (option str * option Qc) :=
  (λ r, (Industry r, Salary r)) <$> view.

(** ** Monthly trend (lines 107-112) *)

(** A parsed date; pandas holds it as a [Timestamp]. *)
Record Timestamp := mkTimestamp { year : Z; month : Z; day : Z }.

(** The calendar month of a date, counted in months since year 0; the
    bucket key of [pd.Grouper(key='Date', freq='M')]. *)
Definition period (t : Timestamp) : Z := (12 * year t + (month t - 1))%Z.

(** The bins of a time grouper: every month from the earliest to the
    latest key, whether or not a row falls in it. *)
Definition month_bins (ps : list Z) : list Z :=
  match ps with
  | [] => []
  | p :: ps' =>
      let lo := foldr Z.min p ps' in
      let hi := foldr Z.max p ps' in
      seqZ lo (hi - lo + 1)
  end.

Section monthly.

(** [pd.to_datetime(column, errors='coerce')] is library code: it maps
    the Date column to a column of timestamps, with NaT ([None]) where a
    cell is missing or cannot be parsed. *)
Variable to_datetime : list (option str) → list (option Timestamp).

(** Lines 109-111: the rows whose Date parsed, each with its timestamp. *)
Definition df_time (view : DataFrame) : list (Timestamp * Row) :=
  omap (λ p : Row * option Timestamp, (λ t, (t, p.1)) <$> p.2)
       (zip view (to_datetime (Date <$> view))).

(** The rows of one month. *)
Definition month_rows (m : Z) (rows : list (Timestamp * Row))
    : list (Timestamp * Row) :=
  filter (λ e, period e.1 = m) rows.

(** Line 112: mean Salary per monthly bin; a bin without a salary has a
    missing mean. *)
Definition monthly_mean (rows : list (Timestamp * Row))
    : list (Z * option Qc) :=
  (λ m, (m, mean ((λ e, Salary e.2) <$> month_rows m rows)))
    <$> month_bins ((λ e, period e.1) <$> rows).


End monthly.

(** An instance of the date parser for the examples: a cell of the form
    [YYYY-MM-DD] naming a real day is that day, any other cell is NaT.
    pandas agrees with it on the cells the examples use. *)
Definition digit (c : char) : option Z :=
  if ((48 <=? c) && (c <=? 57))%N then Some (Z.of_N c - 48)%Z else None.

Definition number (s : str) : option Z :=
  foldl (λ acc c, a ← acc; d ← digit c; Some (10 * a + d)%Z) (Some 0%Z) s.

Definition is_leap (y : Z) : bool :=
  ((y mod 4 =? 0) && negb (y mod 100 =? 0) || (y mod 400 =? 0))%Z.

Definition days_in_month (y m : Z) : Z :=
  if (m =? 2)%Z then (if is_leap y then 29 else 28)
  else if ((m =? 4) || (m =? 6) || (m =? 9) || (m =? 11))%Z then 30
  else 31.

Definition parse_iso (s : str) : option Timestamp :=
  match s with
  | [y1; y2; y3; y4; h1; m1; m2; h2; d1; d2] =>
      if decide (h1 = 45%N ∧ h2 = 45%N) then
        y ← number [y1; y2; y3; y4];
        m ← number [m1; m2];
        d ← number [d1; d2];
        if decide (1 ≤ m ≤ 12 ∧ 1 ≤ d ≤ days_in_month y m)%Z
        then Some (mkTimestamp y m d) else None
      else None
  | _ => None
  end.

Definition to_datetime_iso (col : list (option str)) : list (option Timestamp) :=
  (λ cell, cell ≫= parse_iso) <$> col.

(** ** Missing-value counts (line 50) *)

(** [df.isnull().sum()] for one column: the number of rows whose cell is
    missing. *)
Definition isnull_sum {A} (col : Row → option A) (df : DataFrame) : nat :=
  length (filter (λ r, col r = None) df).

(** ** The scenario table of the specification *)

Definition scenario_df : DataFrame :=
  [ mkRow (Some (py "Data Scientist")) (Some (py "Tech")) (Some (py "NY"))
      (Some (Qc_of_Z 100000)) (Some (py "Python, SQL")) None;
    mkRow (Some (py "Data Scientist")) (Some (py "Tech")) (Some (py "SF"))
      (Some (Qc_of_Z 120000)) (Some (py "Python")) None;
    mkRow (Some (py "Analyst")) (Some (py "Finance")) (Some (py "NY"))
      (Some (Qc_of_Z 70000)) (Some (py "SQL")) None ].


(** * Properties *)

(** ** Filter engine *)

Lemma isin_rows_passes col sel frame :
  (if truthy sel then isin_rows col sel frame else frame)
  = filter (λ r, passes sel (col r)) frame.
Proof.
  unfold isin_rows, passes. destruct sel as [|v sel]; cbn [truthy].
  - induction frame as [|r frame IH]; [done|].
    rewrite filter_cons_True by (by left). by rewrite <- IH.
  - apply list_filter_iff. intros r. split; [by right|].
    intros [?|?]; [done|done].
Qed.

(** Lines 58-64 amount to one filter by the conjunction of the three
    dimensions. *)
Lemma filtered_df_filter (df : DataFrame) (sj si sl : list (option str)) :
  filtered_df df sj si sl = filter (row_passes sj si sl) df.
Proof.
  unfold filtered_df, row_passes. rewrite !isin_rows_passes.
  rewrite !list_filter_filter. apply list_filter_iff. intros r. tauto.
Qed.

Lemma passes_nonempty sel v : passes sel v ↔ (sel ≠ [] → v ∈ sel).
Proof.
  unfold passes. split.
  - intros [->|?] ?; done.
  - intros H. destruct sel as [|x sel]; [by left|]. right. by apply H.
Qed.

(** C1: the filtered view is the loaded table restricted, in order and
    with multiplicity, to the rows that pass every dimension, where a
    dimension with an empty selection passes every row; hence a row is in
    the view exactly when it is in the table and its value lies in every
    non-empty selection. *)
Theorem filtered_df_spec (df : DataFrame) (sj si sl : list (option str)) :
  filtered_df df sj si sl = filter (row_passes sj si sl) df
  ∧ ∀ r, r ∈ filtered_df df sj si sl ↔
         r ∈ df
         ∧ (sj ≠ [] → JobTitle r ∈ sj)
         ∧ (si ≠ [] → Industry r ∈ si)
         ∧ (sl ≠ [] → Location r ∈ sl).
Proof.
  split; [apply filtered_df_filter|]. intros r.
  rewrite filtered_df_filter, list_elem_of_filter. unfold row_passes.
  rewrite !passes_nonempty. tauto.
Qed.

Lemma filter_ext_elem_of {A} (P1 P2 : A → Prop)
    `{!∀ x, Decision (P1 x), !∀ x, Decision (P2 x)} (l : list A) :
  (∀ x, x ∈ l → P1 x ↔ P2 x) → filter P1 l = filter P2 l.
Proof.
  induction l as [|a l IH]; intros HP; [done|].
  rewrite !filter_cons.
  rewrite IH by (intros x Hx; apply HP; by right).
  destruct (decide (P1 a)) as [H1|H1], (decide (P2 a)) as [H2|H2];
    try done; exfalso; apply HP in H1 || apply HP in H2; try done; by left.
Qed.

Lemma elem_of_unique_from seen l x :
  x ∈ unique_from seen l ↔ x ∈ l ∧ x ∉ seen.
Proof.
  revert seen. induction l as [|y l IH]; intros seen; simpl.
  - split; [by intros ?%elem_of_nil|by intros [?%elem_of_nil _]].
  - destruct (decide (y ∈ seen)) as [Hy|Hy].
    + rewrite IH, elem_of_cons. split.
      * intros [? ?]. split; [by right|done].
      * intros [[->|?] ?]; done.
    + rewrite !elem_of_cons, IH, elem_of_cons. split.
      * intros [->|[? Hn]].
        -- split; [by left|done].
        -- split; [by right|]. intros ?. apply Hn. by right.
      * intros [[->|Hl] Hs]; [by left|].
        destruct (decide (x = y)) as [->|Hne]; [by left|right].
        split; [done|]. intros [?|?]; done.
Qed.

Lemma elem_of_unique l x : x ∈ unique l ↔ x ∈ l.
Proof.
  unfold unique. rewrite elem_of_unique_from. split; [by intros [? _]|].
  intros ?. split; [done|]. by intros ?%elem_of_nil.
Qed.

Lemma passes_unique (col : Row → option str) (df : DataFrame) r :
  r ∈ df → passes (unique (col <$> df)) (col r).
Proof.
  intros Hr. right. apply elem_of_unique. by apply list_elem_of_fmap_2.
Qed.

(** C5: selecting every distinct value of a dimension (what
    [df[col].unique()] offers in the widget) gives the same view as
    selecting nothing there, the other two selections held fixed. *)
Theorem empty_selection_is_select_all (df : DataFrame)
    (sj si sl : list (option str)) :
  filtered_df df (unique (JobTitle <$> df)) si sl = filtered_df df [] si sl
  ∧ filtered_df df sj (unique (Industry <$> df)) sl = filtered_df df sj [] sl
  ∧ filtered_df df sj si (unique (Location <$> df)) = filtered_df df sj si [].
Proof.
  repeat split.
  all: rewrite !filtered_df_filter.
  all: apply filter_ext_elem_of; intros r Hr; unfold row_passes.
  all: pose proof (passes_unique JobTitle df r Hr).
  all: pose proof (passes_unique Industry df r Hr).
  all: pose proof (passes_unique Location df r Hr).
  all: assert (∀ v, passes [] v) by (by left).
  all: split; intros (? & ? & ?); repeat split; auto.
Qed.

(** C6: filtering never adds rows, and filtering the view again with the
    same three selections returns the view. *)
Theorem filter_count_and_idempotent (df : DataFrame)
    (sj si sl : list (option str)) :
  length (filtered_df df sj si sl) ≤ length df
  ∧ filtered_df (filtered_df df sj si sl) sj si sl = filtered_df df sj si sl.
Proof.
  rewrite !filtered_df_filter.
  split; [apply length_filter|].
  rewrite list_filter_filter. apply list_filter_iff. tauto.
Qed.

(** Positions in a sublist are positions of the list, in the same
    order. *)
Lemma sublist_lookup_order {A} (l k : list A) :
  l `sublist_of` k →
  ∀ i j a b, i < j → l !! i = Some a → l !! j = Some b →
  ∃ i' j', i' < j' ∧ k !! i' = Some a ∧ k !! j' = Some b.
Proof.
  induction 1 as [|x l k Hs IH|x l k Hs IH]; intros i j a b Hij Ha Hb.
  - by rewrite lookup_nil in Ha.
  - destruct j as [|j]; [lia|]. destruct i as [|i]; simpl in *.
    + simplify_eq. apply list_elem_of_lookup_2 in Hb.
      eapply sublist_subseteq in Hb; [|done].
      apply list_elem_of_lookup_1 in Hb as [j' Hj'].
      exists 0, (S j'). split; [lia|done].
    + destruct (IH i j a b) as (i' & j' & ? & ? & ?); [lia|done|done|].
      exists (S i'), (S j'). split; [lia|done].
  - destruct (IH i j a b) as (i' & j' & ? & ? & ?); [done..|].
    exists (S i'), (S j'). split; [lia|done].
Qed.

(** C9: the view is the table with rows deleted, so rows keep their
    relative order: two rows at positions [i < j] of the view stand at
    positions [i' < j'] of the table. *)
Theorem filtered_df_preserves_order (df : DataFrame)
    (sj si sl : list (option str)) :
  filtered_df df sj si sl `sublist_of` df
  ∧ ∀ i j a b, i < j →
      filtered_df df sj si sl !! i = Some a →
      filtered_df df sj si sl !! j = Some b →
      ∃ i' j', i' < j' ∧ df !! i' = Some a ∧ df !! j' = Some b.
Proof.
  assert (Hs : filtered_df df sj si sl `sublist_of` df).
  { rewrite filtered_df_filter. apply sublist_filter. }
  split; [done|]. by apply sublist_lookup_order.
Qed.

(** ** The stable sort *)

Section stable_sort.
Context {A : Type} (le : A → A → bool).

Lemma insert_by_Permutation x l : insert_by le x l ≡ₚ x :: l.
Proof.
  induction l as [|y l IH]; simpl; [done|].
  destruct (le x y); [done|]. rewrite IH. apply Permutation_swap.
Qed.

Lemma stable_sort_Permutation l : stable_sort le l ≡ₚ l.
Proof.
  induction l as [|x l IH]; simpl; [done|].
  by rewrite insert_by_Permutation, IH.
Qed.

Hypothesis le_total : ∀ a b, le a b = false → le b a = true.
Hypothesis le_trans : ∀ a b c, le a b = true → le b c = true → le a c = true.

Variable T : relation A.

Lemma insert_by_ordered x l :
  Forall (T x) l → StronglySorted (ordered le T) l →
  StronglySorted (ordered le T) (insert_by le x l).
Proof.
  induction l as [|y l IH]; simpl; intros HT Hs.
  - repeat constructor.
  - apply StronglySorted_cons in Hs as [Hy Hs].
    apply Forall_cons in HT as [HTy HT].
    destruct (le x y) eqn:Hxy.
    + apply StronglySorted_cons. split.
      * constructor; [by split|].
        rewrite Forall_forall in Hy, HT |- *. intros z Hz. split.
        -- apply le_trans with y; [done|]. by apply Hy.
        -- intros _. by apply HT.
      * apply StronglySorted_cons. done.
    + apply StronglySorted_cons. split; [|by apply IH].
      rewrite Forall_forall in Hy |- *. intros z Hz.
      rewrite insert_by_Permutation in Hz.
      apply elem_of_cons in Hz as [->|Hz]; [|by apply Hy].
      split; [by apply le_total|]. congruence.
Qed.

Lemma stable_sort_ordered l :
  StronglySorted T l → StronglySorted (ordered le T) (stable_sort le l).
Proof.
  induction l as [|x l IH]; simpl; intros Hs; [constructor|].
  apply StronglySorted_cons in Hs as [Hx Hs].
  apply insert_by_ordered; [|by apply IH].
  rewrite Forall_forall in Hx |- *. intros z Hz.
  apply Hx. by rewrite stable_sort_Permutation in Hz.
Qed.

End stable_sort.

Lemma StronglySorted_lookup {A} (R : relation A) l i j a b :
  StronglySorted R l → i < j → l !! i = Some a → l !! j = Some b → R a b.
Proof.
  intros Hs. revert i j. induction Hs as [|x l Hs IH Hx]; intros i j Hij Ha Hb.
  - by rewrite lookup_nil in Ha.
  - destruct j as [|j]; [lia|]. destruct i as [|i]; simpl in *.
    + simplify_eq. rewrite Forall_forall in Hx. apply Hx.
      by eapply list_elem_of_lookup_2.
    + apply (IH i j); [lia|done..].
Qed.

Lemma StronglySorted_sublist {A} (R : relation A) l k :
  l `sublist_of` k → StronglySorted R k → StronglySorted R l.
Proof.
  induction 1 as [|x l k Hs IH|x l k Hs IH]; intros Hk; [done|..].
  - apply StronglySorted_cons in Hk as [Hx Hk].
    apply StronglySorted_cons. split; [|by apply IH].
    rewrite Forall_forall in Hx |- *. intros z Hz. apply Hx.
    by eapply sublist_subseteq.
  - apply StronglySorted_cons in Hk as [_ Hk]. by apply IH.
Qed.

Lemma StronglySorted_True {A} (l : list A) : StronglySorted (λ _ _, True) l.
Proof. induction l; constructor; [done|]. by apply Forall_forall. Qed.

(** ** Tokens: [strip] and [split] *)






Lemma split_nonempty sep x : split sep x ≠ [].
Proof.
  destruct x as [|c x]; simpl; [done|].
  destruct (decide (c = sep)); [done|]. by destruct (split sep x).
Qed.


(** ** The counter *)

Lemma counter_add_sum x c :
  sum_list (counter_add x c).*2 = S (sum_list c.*2).
Proof.
  induction c as [|[k n] c IH]; simpl; [done|].
  destruct (decide (k = x)); csimpl; [done|]. rewrite IH. lia.
Qed.

Lemma Counter_sum l : sum_list (Counter l).*2 = length l.
Proof.
  unfold Counter.
  assert (G : ∀ acc, sum_list (foldl (λ c x, counter_add x c) acc l).*2
                     = sum_list acc.*2 + length l).
  { induction l as [|x l IH]; intros acc; simpl; [lia|].
    rewrite IH, counter_add_sum. lia. }
  by rewrite G.
Qed.

Lemma elem_of_nub l x : x ∈ nub l ↔ x ∈ l.
Proof.
  induction l as [|y l IH]; simpl; [done|].
  rewrite !elem_of_cons, list_elem_of_filter, IH.
  destruct (decide (x = y)); tauto.
Qed.

Lemma NoDup_nub l : NoDup (nub l).
Proof.
  induction l as [|y l IH]; simpl; constructor.
  - rewrite list_elem_of_filter. by intros [? _].
  - by apply NoDup_filter.
Qed.

Lemma nub_snoc p x :
  nub (p ++ [x]) = if decide (x ∈ p) then nub p else nub p ++ [x].
Proof.
  induction p as [|a p IH]; simpl.
  - by destruct (decide (x ∈ [])) as [?%elem_of_nil|].
  - rewrite IH. destruct (decide (x ∈ a :: p)) as [Hin|Hin].
    + destruct (decide (x ∈ p)) as [Hx|Hx]; [done|].
      apply elem_of_cons in Hin as [->|?]; [|done].
      rewrite filter_app, filter_cons_False, filter_nil, app_nil_r; [done|].
      by intros ?.
    + rewrite decide_False by (intros ?; apply Hin; by right).
      rewrite filter_app, filter_cons_True; [done|].
      intros ->. apply Hin. by left.
Qed.

Lemma occurrences_snoc k p x :
  occurrences k (p ++ [x])
  = occurrences k p + (if decide (x = k) then 1 else 0).
Proof.
  unfold occurrences. rewrite filter_app, length_app, filter_cons.
  by destruct (decide (x = k)).
Qed.

Lemma occurrences_pos k l : k ∈ l ↔ 0 < occurrences k l.
Proof.
  unfold occurrences. split.
  - intros Hk. assert (Hf : k ∈ filter (λ y, y = k) l)
      by (by apply list_elem_of_filter).
    destruct (filter _ l); simpl; [by apply elem_of_nil in Hf|lia].
  - intros Hlen. destruct (filter (λ y, y = k) l) as [|y f] eqn:Hf;
      simpl in Hlen; [lia|].
    assert (Hy : y ∈ filter (λ y, y = k) l) by (rewrite Hf; by left).
    apply list_elem_of_filter in Hy as [-> ?]. done.
Qed.

Lemma counter_add_fmap (f : str → nat) ks x :
  NoDup ks →
  counter_add x ((λ k, (k, f k)) <$> ks)
  = if decide (x ∈ ks)
    then (λ k, (k, if decide (k = x) then S (f k) else f k)) <$> ks
    else ((λ k, (k, f k)) <$> ks) ++ [(x, 1)].
Proof.
  induction 1 as [|k ks Hk Hnd IH]; csimpl.
  - by destruct (decide (x ∈ [])) as [?%elem_of_nil|].
  - destruct (decide (k = x)) as [->|Hne].
    + destruct (decide (x ∈ x :: ks)) as [_|Hn]; [|exfalso; apply Hn; by left].
      f_equal. apply list_fmap_ext. intros i k Hik.
      rewrite decide_False; [done|]. intros ->.
      apply Hk. by eapply list_elem_of_lookup_2.
    + rewrite IH. destruct (decide (x ∈ k :: ks)) as [Hin|Hin].
      * apply elem_of_cons in Hin as [->|Hin]; [done|].
        by rewrite decide_True by done.
      * rewrite decide_False by (intros ?; apply Hin; by right). done.
Qed.

(** The counter holds every distinct token once, in order of first
    appearance, with its number of occurrences. *)
Lemma Counter_spec l : Counter l = (λ k, (k, occurrences k l)) <$> nub l.
Proof.
  unfold Counter.
  assert (G : ∀ p,
    foldl (λ c x, counter_add x c) ((λ k, (k, occurrences k p)) <$> nub p) l
    = (λ k, (k, occurrences k (p ++ l))) <$> nub (p ++ l)).
  { induction l as [|x l IH]; intros p; simpl.
    - by rewrite app_nil_r.
    - replace (p ++ x :: l) with ((p ++ [x]) ++ l) by (by rewrite <- app_assoc).
      rewrite <- IH. f_equal.
      rewrite counter_add_fmap by apply NoDup_nub.
      rewrite nub_snoc.
      destruct (decide (x ∈ p)) as [Hx|Hx].
      + rewrite decide_True by (by apply elem_of_nub).
        apply list_fmap_ext. intros i k _. rewrite occurrences_snoc.
        destruct (decide (k = x)) as [->|Hne].
        * rewrite decide_True by done. f_equal. lia.
        * rewrite decide_False by done. f_equal. lia.
      + rewrite decide_False by (by rewrite elem_of_nub).
        rewrite fmap_app. csimpl. f_equal.
        * apply list_fmap_ext. intros i k Hik. rewrite occurrences_snoc.
          rewrite decide_False; [f_equal; lia|]. intros ->.
          apply Hx, elem_of_nub. by eapply list_elem_of_lookup_2.
        * rewrite occurrences_snoc, decide_True by done.
          do 2 f_equal.
          destruct (occurrences x p) eqn:Ho; [done|].
          exfalso. apply Hx, occurrences_pos. lia. }
  apply (G []).
Qed.

Lemma first_index_nub_sorted l :
  StronglySorted (λ a b, first_index a l < first_index b l) (nub l).
Proof.
  induction l as [|x l IH]; simpl; [constructor|].
  apply StronglySorted_cons. split.
  - apply Forall_forall. intros y [Hy _]%list_elem_of_filter.
    rewrite decide_True by done. rewrite decide_False by congruence. lia.
  - pose proof (StronglySorted_sublist _ _ _
      (sublist_filter (λ y, y ≠ x) (nub l)) IH) as IH'.
    assert (Hall : Forall (λ y, y ≠ x) (filter (λ y, y ≠ x) (nub l))).
    { apply Forall_forall. by intros y [? _]%list_elem_of_filter. }
    revert IH' Hall. generalize (filter (λ y, y ≠ x) (nub l)).
    induction 1 as [|a k Hs IHs Ha]; intros Hall; [constructor|].
    apply Forall_cons in Hall as [Hax Hall].
    apply StronglySorted_cons. split; [|by apply IHs].
    rewrite Forall_forall in Ha, Hall |- *. intros b Hb.
    rewrite !decide_False by (try congruence; intros ->; by eapply Hall).
    specialize (Ha b Hb). lia.
Qed.

Lemma count_ge_total a b : count_ge a b = false → count_ge b a = true.
Proof.
  unfold count_ge. rewrite bool_decide_eq_false, bool_decide_eq_true. lia.
Qed.

Lemma count_ge_trans a b c :
  count_ge a b = true → count_ge b c = true → count_ge a c = true.
Proof. unfold count_ge. rewrite !bool_decide_eq_true. lia. Qed.

(** The counter sorted by count, largest first: equal counts stay in
    order of first appearance of their token in [l]. *)
Lemma sorted_counter_ordered l :
  StronglySorted
    (ordered count_ge (λ a b, first_index a.1 l < first_index b.1 l))
    (stable_sort count_ge (Counter l)).
Proof.
  apply stable_sort_ordered.
  - apply count_ge_total.
  - apply count_ge_trans.
  - rewrite Counter_spec.
    eapply StronglySorted_fmap; [|apply first_index_nub_sorted]. done.
Qed.

Lemma elem_of_Counter l e :
  e ∈ Counter l ↔ e.1 ∈ l ∧ e.2 = occurrences e.1 l.
Proof.
  rewrite Counter_spec, list_elem_of_fmap. split.
  - intros (k & -> & Hk). rewrite elem_of_nub in Hk. by split.
  - destruct e as [k n]. simpl. intros [Hk ->].
    exists k. split; [done|]. by apply elem_of_nub.
Qed.

Lemma Counter_keys l : (Counter l).*1 = nub l.
Proof.
  rewrite Counter_spec, <- list_fmap_compose. apply list_fmap_id.
Qed.

Lemma all_skills_unfold (view : DataFrame) :
  all_skills view
  = mjoin ((λ r, match Skills r with
                 | Some x => strip <$> split comma x
                 | None => []
                 end) <$> view).
Proof.
  unfold all_skills, skills_series.
  induction view as [|r view IH]; [done|]. csimpl.
  destruct (Skills r); csimpl; by rewrite IH.
Qed.



(** ** Job count by location *)

Lemma occurrences_column (col : Row → option str) (view : DataFrame) v :
  occurrences v (omap id (col <$> view))
  = length (filter (λ r, col r = Some v) view).
Proof.
  unfold occurrences. induction view as [|r view IH]; [done|]. csimpl.
  rewrite (filter_cons (λ r, col r = Some v)).
  destruct (col r) as [w|]; simpl.
  - rewrite filter_cons.
    destruct (decide (w = v)), (decide (Some w = Some v));
      simplify_eq; simpl; by rewrite IH.
  - by destruct (decide (None = Some v)).
Qed.

Lemma elem_of_column (col : Row → option str) (view : DataFrame) v :
  v ∈ omap id (col <$> view) ↔ ∃ r, r ∈ view ∧ col r = Some v.
Proof.
  rewrite list_elem_of_omap. setoid_rewrite list_elem_of_fmap. split.
  - intros (o & (r & -> & Hr) & Ho). by exists r.
  - intros (r & Hr & Hv). exists (col r). split; [by exists r|done].
Qed.

(** C10: the location counts hold each location present in the view
    exactly once, with the number of rows of the view at that location,
    ordered by decreasing count.  (A missing Location cell is no location:
    [value_counts] drops it.) *)
Theorem loc_count_spec (view : DataFrame) :
  let lc := loc_count view in
  NoDup lc.*1
  ∧ (∀ v, v ∈ lc.*1 ↔ ∃ r, r ∈ view ∧ Location r = Some v)
  ∧ (∀ e, e ∈ lc →
       e.2 = length (filter (λ r, Location r = Some e.1) view))
  ∧ (∀ i j a b, i < j → lc !! i = Some a → lc !! j = Some b → b.2 ≤ a.2).
Proof.
  intros lc. unfold loc_count, value_counts in lc.
  set (col := omap id (Location <$> view)) in *.
  assert (Hperm : lc ≡ₚ Counter col) by apply stable_sort_Permutation.
  assert (Hs : StronglySorted
    (ordered count_ge (λ a b, first_index a.1 col < first_index b.1 col)) lc)
    by apply sorted_counter_ordered.
  clearbody lc. split; [|split; [|split]].
  - rewrite Hperm, Counter_keys. apply NoDup_nub.
  - intros v. rewrite Hperm, Counter_keys, elem_of_nub. apply elem_of_column.
  - intros e He. rewrite Hperm in He. apply elem_of_Counter in He as [_ ->].
    apply occurrences_column.
  - intros i j a b Hij Ha Hb.
    destruct (StronglySorted_lookup _ _ _ _ _ _ Hs Hij Ha Hb) as [Hle _].
    unfold count_ge in Hle. by rewrite bool_decide_eq_true in Hle.
Qed.

(** ** Mean salary by job title *)

Lemma StronglySorted_reverse {A} (R : relation A) l :
  StronglySorted R l → StronglySorted (flip R) (reverse l).
Proof.
  induction 1 as [|x l Hs IH Hx]; [constructor|].
  rewrite reverse_cons. apply StronglySorted_app. split; [|split].
  - intros a b Ha ->%list_elem_of_singleton.
    rewrite Forall_forall in Hx. apply Hx. by apply elem_of_reverse.
  - done.
  - repeat constructor.
Qed.

Lemma val_le_total a b : val_le a b = false → val_le b a = true.
Proof.
  unfold val_le. rewrite bool_decide_eq_false, bool_decide_eq_true.
  intros H. by apply Qclt_le_weak, Qcnot_le_lt.
Qed.

Lemma val_le_trans a b c :
  val_le a b = true → val_le b c = true → val_le a c = true.
Proof. unfold val_le. rewrite !bool_decide_eq_true. apply Qcle_trans. Qed.

Lemma Qc_of_Z_nonzero n : n ≠ 0%Z → Qc_of_Z n ≠ 0%Qc.
Proof.
  intros Hn H. apply (f_equal this) in H. cbv in H. congruence.
Qed.

(** [mean] is the arithmetic mean of the non-missing values. *)
Lemma mean_spec xs :
  match mean xs with
  | Some m =>
      omap id xs ≠ []
      ∧ (m * Qc_of_Z (Z.of_nat (length (omap id xs))))%Qc = Qc_sum (omap id xs)
  | None => omap id xs = []
  end.
Proof.
  unfold mean. destruct (omap id xs) as [|v vs]; [done|].
  split; [done|]. rewrite Qcmult_comm. apply Qcmult_div_r.
  apply Qc_of_Z_nonzero. simpl. lia.
Qed.

Lemma omap_id_fmap {A B} (f : A → option B) (l : list A) :
  omap id (f <$> l) = omap f l.
Proof.
  induction l as [|x l IH]; [done|]. csimpl. by rewrite IH.
Qed.

Lemma sort_values_desc_Permutation s : sort_values_desc s ≡ₚ s.
Proof.
  unfold sort_values_desc.
  rewrite reverse_Permutation, stable_sort_Permutation, reverse_Permutation.
  induction s as [|[k [m|]] s IH]; csimpl.
  - done.
  - rewrite filter_cons_False by done. by rewrite IH.
  - rewrite filter_cons_True by done.
    rewrite <- Permutation_middle. by rewrite IH.
Qed.

Lemma sort_values_desc_sorted s : StronglySorted desc (sort_values_desc s).
Proof.
  unfold sort_values_desc. apply StronglySorted_app. split; [|split].
  - intros a b _ [Hb _]%list_elem_of_filter. unfold desc. rewrite Hb.
    by destruct a.2.
  - eapply StronglySorted_fmap;
      [|apply StronglySorted_reverse,
          (stable_sort_ordered val_le val_le_total val_le_trans (λ _ _, True)),
          StronglySorted_True].
    intros x y [Hle _]. unfold desc, val_le in *. simpl.
    by rewrite bool_decide_eq_true in Hle.
  - assert (Hall : Forall (λ e : str * option Qc, e.2 = None)
                     (filter (λ e : str * option Qc, e.2 = None) s)).
    { apply Forall_forall. by intros e [? _]%list_elem_of_filter. }
    induction Hall as [|e l He Hl IH]; constructor; [done|].
    eapply Forall_impl; [exact Hl|]. intros b Hb. unfold desc.
    rewrite Hb. by destruct e.2.
Qed.

Lemma groupby_mean_keys key (view : DataFrame) :
  (groupby_mean key view).*1 ≡ₚ nub (omap key view).
Proof.
  unfold groupby_mean. rewrite <- list_fmap_compose.
  etrans; [|apply (stable_sort_Permutation str_leb)].
  generalize (stable_sort str_leb (nub (omap key view))).
  intros l. induction l as [|k l IH]; csimpl; [done|]. by rewrite IH.
Qed.

Lemma elem_of_groupby_mean key (view : DataFrame) e :
  e ∈ groupby_mean key view →
  e.2 = mean (Salary <$> group_rows key e.1 view).
Proof.
  unfold groupby_mean. intros (k & -> & _)%list_elem_of_fmap. done.
Qed.

(** C3: the aggregate has one entry per job title present in the view
    (rows without a job title form no group); an entry carries the
    arithmetic mean of the non-missing salaries of its rows, or a missing
    value when the group has none; entries come in decreasing order of
    mean (equal means in either order), entries with a missing mean last;
    on the scenario table the result is Data Scientist 110000, Analyst
    70000. *)
Theorem avg_salary_by_job_spec (view : DataFrame) :
  let avg := avg_salary_by_job view in
  NoDup avg.*1
  ∧ (∀ k, k ∈ avg.*1 ↔ ∃ r, r ∈ view ∧ JobTitle r = Some k)
  ∧ (∀ e, e ∈ avg →
       let vals := omap Salary (group_rows JobTitle e.1 view) in
       match e.2 with
       | Some m =>
           vals ≠ []
           ∧ (m * Qc_of_Z (Z.of_nat (length vals)))%Qc = Qc_sum vals
       | None => vals = []
       end)
  ∧ (∀ i j a b, i < j → avg !! i = Some a → avg !! j = Some b → desc a b)
  ∧ avg_salary_by_job scenario_df
    = [ (py "Data Scientist", Some (Qc_of_Z 110000));
        (py "Analyst", Some (Qc_of_Z 70000)) ].
Proof.
  intros avg.
  assert (Hperm : avg ≡ₚ groupby_mean JobTitle view)
    by apply sort_values_desc_Permutation.
  assert (Hs : StronglySorted desc avg) by apply sort_values_desc_sorted.
  clearbody avg. split; [|split; [|split; [|split]]].
  - rewrite Hperm, groupby_mean_keys. apply NoDup_nub.
  - intros k. rewrite Hperm, groupby_mean_keys, elem_of_nub.
    rewrite <- (omap_id_fmap JobTitle). apply elem_of_column.
  - intros e He. rewrite Hperm in He.
    apply elem_of_groupby_mean in He. rewrite He.
    rewrite <- (omap_id_fmap Salary). apply mean_spec.
  - intros i j a b. by apply StronglySorted_lookup.
  - vm_compute.
    f_equal; [|f_equal]; do 2 f_equal; apply Qc_is_canon; reflexivity.
Qed.

(** ** Monthly trend *)

Lemma foldr_min_spec (p : Z) (ps : list Z) :
  foldr Z.min p ps ∈ p :: ps ∧ ∀ x, x ∈ p :: ps → (foldr Z.min p ps ≤ x)%Z.
Proof.
  induction ps as [|q ps [IHin IHle]]; simpl.
  - split; [by left|]. intros x ->%list_elem_of_singleton. lia.
  - split.
    + destruct (Z.min_spec q (foldr Z.min p ps)) as [[_ ->]|[_ ->]].
      * right. by left.
      * apply elem_of_cons in IHin as [->|?]; [by left|]. right. by right.
    + intros x Hx. assert (Hc : x = q ∨ x ∈ p :: ps).
      { apply elem_of_cons in Hx as [->|Hx]; [right; by left|].
        apply elem_of_cons in Hx as [->|Hx]; [by left|]. right. by right. }
      destruct Hc as [->|Hc]; [lia|]. specialize (IHle x Hc). lia.
Qed.

Lemma foldr_max_spec (p : Z) (ps : list Z) :
  foldr Z.max p ps ∈ p :: ps ∧ ∀ x, x ∈ p :: ps → (x ≤ foldr Z.max p ps)%Z.
Proof.
  induction ps as [|q ps [IHin IHle]]; simpl.
  - split; [by left|]. intros x ->%list_elem_of_singleton. lia.
  - split.
    + destruct (Z.max_spec q (foldr Z.max p ps)) as [[_ ->]|[_ ->]].
      * apply elem_of_cons in IHin as [->|?]; [by left|]. right. by right.
      * right. by left.
    + intros x Hx. assert (Hc : x = q ∨ x ∈ p :: ps).
      { apply elem_of_cons in Hx as [->|Hx]; [right; by left|].
        apply elem_of_cons in Hx as [->|Hx]; [by left|]. right. by right. }
      destruct Hc as [->|Hc]; [lia|]. specialize (IHle x Hc). lia.
Qed.





Lemma fmap_fst_graph {A B} (f : A → B) (l : list A) :
  ((λ k, (k, f k)) <$> l).*1 = l.
Proof. induction l as [|k l IH]; csimpl; [done|]. by rewrite IH. Qed.

Section monthly_facts.
Variable to_datetime : list (option str) → list (option Timestamp).


Lemma monthly_mean_months rows :
  (monthly_mean rows).*1 = month_bins ((λ e, period e.1) <$> rows).
Proof. unfold monthly_mean. apply fmap_fst_graph. Qed.

End monthly_facts.



(** ** The scenarios of the specification *)

Example scenario_top_skills :
  top_skills scenario_df = [(py "Python", 2); (py "SQL", 2)].
Proof. vm_compute. reflexivity. Qed.

Example scenario_filter_NY :
  filtered_df scenario_df [] [] [Some (py "NY")]
  = filter (λ r, Location r = Some (py "NY")) scenario_df
  ∧ length (filtered_df scenario_df [] [] [Some (py "NY")]) = 2
  ∧ loc_count (filtered_df scenario_df [] [] [Some (py "NY")])
    = [(py "NY", 2)].
Proof. split; [|split]; vm_compute; reflexivity. Qed.

Example scenario_unparseable_date :
  to_datetime_iso [Some (py "not-a-date"); Some (py "2024-01-15")]
  = [None; Some (mkTimestamp 2024 1 15)]
  ∧ month_bins [period (mkTimestamp 2024 1 15)] = [24288%Z].
Proof. split; vm_compute; reflexivity. Qed.

(** * Further properties of the pipeline *)

(** ** The widget options (lines 54-56) *)

Lemma unique_from_sublist seen l : unique_from seen l `sublist_of` l.
Proof.
  revert seen. induction l as [|x l IH]; intros seen; simpl; [done|].
  destruct (decide (x ∈ seen)).
  - by apply sublist_cons.
  - by apply sublist_skip.
Qed.

Lemma unique_from_NoDup seen l : NoDup (unique_from seen l).
Proof.
  revert seen. induction l as [|x l IH]; intros seen; simpl; [constructor|].
  destruct (decide (x ∈ seen)); [done|]. constructor; [|done].
  rewrite elem_of_unique_from. intros [_ Hx]. apply Hx. by left.
Qed.

Lemma unique_from_snoc seen l x :
  unique_from seen (l ++ [x])
  = if decide (x ∈ seen ∨ x ∈ l) then unique_from seen l
    else unique_from seen l ++ [x].
Proof.
  revert seen. induction l as [|y l IH]; intros seen; simpl.
  - destruct (decide (x ∈ seen)) as [Hx|Hx].
    + by rewrite decide_True by (by left).
    + rewrite decide_False; [done|]. by intros [?|?%elem_of_nil].
  - destruct (decide (y ∈ seen)) as [Hy|Hy]; rewrite IH.
    + destruct (decide (x ∈ seen ∨ x ∈ l)) as [Hd|Hd].
      * rewrite decide_True; [done|].
        destruct Hd; [by left|right; by right].
      * rewrite decide_False; [done|].
        intros [?|[->|?]%elem_of_cons]; apply Hd; auto.
    + destruct (decide (x ∈ y :: seen ∨ x ∈ l)) as [Hd|Hd].
      * rewrite decide_True; [done|].
        destruct Hd as [[->|?]%elem_of_cons|?];
          [right; by left|by left|right; by right].
      * rewrite decide_False; [done|].
        intros [?|[->|?]%elem_of_cons]; apply Hd;
          [left; by right|left; by left|by right].
Qed.

(** X1: the options offered by a filter widget, [df[col].unique()], hold
    every value of the column exactly once, in the order of the column;
    reading one more cell appends its value when it is new and changes
    nothing otherwise. *)
Theorem unique_options (l : list (option str)) :
  NoDup (unique l)
  ∧ (∀ x, x ∈ unique l ↔ x ∈ l)
  ∧ unique l `sublist_of` l
  ∧ ∀ x, unique (l ++ [x])
         = if decide (x ∈ l) then unique l else unique l ++ [x].
Proof.
  split; [apply unique_from_NoDup|].
  split; [intros x; apply elem_of_unique|].
  split; [apply unique_from_sublist|].
  intros x. unfold unique. rewrite unique_from_snoc.
  destruct (decide (x ∈ l)) as [Hx|Hx].
  - by rewrite decide_True by (by right).
  - rewrite decide_False; [done|]. by intros [?%elem_of_nil|?].
Qed.

(** ** Composition of the filters (lines 58-64) *)

(** X2: the three dimensions filter independently: the view is the same
    when the selections are applied one at a time, in the order of the
    script or in the reverse order. *)
Theorem filter_dimensions_compose (df : DataFrame)
    (sj si sl : list (option str)) :
  filtered_df df sj si sl
  = filtered_df (filtered_df (filtered_df df sj [] []) [] si []) [] [] sl
  ∧ filtered_df df sj si sl
    = filtered_df (filtered_df (filtered_df df [] [] sl) [] si []) sj [] [].
Proof.
  rewrite !filtered_df_filter, !list_filter_filter.
  assert (Hnil : ∀ v, passes [] v) by (by left).
  split; apply list_filter_iff; intros r; unfold row_passes;
    pose proof (Hnil (JobTitle r)); pose proof (Hnil (Industry r));
    pose proof (Hnil (Location r)); tauto.
Qed.

Lemma filter_sublist_impl {A} (P Q : A → Prop)
    `{!∀ x, Decision (P x), !∀ x, Decision (Q x)} (l : list A) :
  (∀ x, P x → Q x) → filter P l `sublist_of` filter Q l.
Proof.
  intros HPQ. induction l as [|x l IH]; [done|].
  rewrite !filter_cons.
  destruct (decide (P x)) as [HP|HP], (decide (Q x)) as [HQ|HQ].
  - by apply sublist_skip.
  - by destruct HQ; apply HPQ.
  - by apply sublist_cons.
  - done.
Qed.

(** X3: widening the selections widens the view.  A selection is wider
    than another when it is empty (no restriction) or when the other is
    non-empty and included in it. *)
Theorem wider_selection_wider_view (df : DataFrame)
    (sj sj' si si' sl sl' : list (option str)) :
  sj = [] ∨ (sj' ≠ [] ∧ sj' ⊆ sj) →
  si = [] ∨ (si' ≠ [] ∧ si' ⊆ si) →
  sl = [] ∨ (sl' ≠ [] ∧ sl' ⊆ sl) →
  filtered_df df sj' si' sl' `sublist_of` filtered_df df sj si sl.
Proof.
  intros Hj Hi Hl. rewrite !filtered_df_filter.
  assert (Hmono : ∀ s s' v,
    s = [] ∨ (s' ≠ [] ∧ s' ⊆ s) → passes s' v → passes s v).
  { intros s s' v [->|[Hne Hsub]] Hp; [by left|]. right.
    destruct Hp as [->|Hv]; [done|]. by apply Hsub. }
  apply filter_sublist_impl. intros r (? & ? & ?). unfold row_passes.
  eauto 10.
Qed.

Lemma wider_selection_wider_view_witness :
  filtered_df scenario_df [Some (py "Analyst")] [] [Some (py "NY")]
  `sublist_of`
  filtered_df scenario_df [Some (py "Analyst"); Some (py "Data Scientist")]
    [] [].
Proof.
  apply wider_selection_wider_view.
  - right. split; [done|]. intros x ->%list_elem_of_singleton. by left.
  - by left.
  - by left.
Defined.

(** X4: a value picked from the options of a widget always has rows: when
    one dimension alone is filtered by values offered for it, every picked
    value occurs in the view. *)
Theorem selected_option_has_rows (df : DataFrame)
    (sel : list (option str)) (v : option str) :
  v ∈ sel →
  (sel ⊆ unique (JobTitle <$> df) →
     ∃ r, r ∈ filtered_df df sel [] [] ∧ JobTitle r = v)
  ∧ (sel ⊆ unique (Industry <$> df) →
     ∃ r, r ∈ filtered_df df [] sel [] ∧ Industry r = v)
  ∧ (sel ⊆ unique (Location <$> df) →
     ∃ r, r ∈ filtered_df df [] [] sel ∧ Location r = v).
Proof.
  intros Hv.
  assert (Hnil : ∀ w, passes [] w) by (by left).
  repeat split; intros Hsub.
  all: pose proof (Hsub v Hv) as Hu; rewrite elem_of_unique in Hu.
  all: apply list_elem_of_fmap in Hu as (r & -> & Hr); exists r.
  all: split; [|done].
  all: rewrite filtered_df_filter; apply list_elem_of_filter.
  all: split; [|done]; unfold row_passes.
  all: repeat split; try apply Hnil; by right.
Qed.

Lemma selected_option_has_rows_witness :
  ∃ r, r ∈ filtered_df scenario_df [Some (py "Analyst")] [] []
       ∧ JobTitle r = Some (py "Analyst").
Proof.
  apply (selected_option_has_rows scenario_df [Some (py "Analyst")]);
    [by left|].
  intros x ->%list_elem_of_singleton. vm_compute. right. by left.
Defined.

(** X5: the charts show selected categories only: with a non-empty
    selection for a dimension, the job titles of the mean-salary chart,
    the locations of the count chart and the industries of the box plot
    all belong to the selection. *)
Theorem charts_show_selected_only (df : DataFrame)
    (sj si sl : list (option str)) :
  let view := filtered_df df sj si sl in
  (sj ≠ [] → ∀ k, k ∈ (avg_salary_by_job view).*1 → Some k ∈ sj)
  ∧ (sl ≠ [] → ∀ k, k ∈ (loc_count view).*1 → Some k ∈ sl)
  ∧ (si ≠ [] → ∀ p, p ∈ box_points view → p.1 ∈ si).
Proof.
  intros view.
  assert (Hview : ∀ r, r ∈ view → row_passes sj si sl r).
  { intros r Hr. unfold view in Hr. rewrite filtered_df_filter in Hr.
    by apply list_elem_of_filter in Hr as [? _]. }
  split; [|split].
  - intros Hne k Hk.
    assert (Hp : (avg_salary_by_job view).*1 ≡ₚ nub (omap JobTitle view)).
    { unfold avg_salary_by_job.
      by rewrite sort_values_desc_Permutation, groupby_mean_keys. }
    rewrite Hp, elem_of_nub, <- (omap_id_fmap JobTitle) in Hk.
    apply elem_of_column in Hk as (r & Hr & Hk).
    destruct (Hview r Hr) as ([?|Hin] & _ & _); [done|]. by rewrite <- Hk.
  - intros Hne k Hk.
    assert (Hp : (loc_count view).*1 ≡ₚ nub (omap id (Location <$> view))).
    { unfold loc_count, value_counts.
      by rewrite stable_sort_Permutation, Counter_keys. }
    rewrite Hp, elem_of_nub in Hk.
    apply elem_of_column in Hk as (r & Hr & Hk).
    destruct (Hview r Hr) as (_ & _ & [?|Hin]); [done|]. by rewrite <- Hk.
  - intros Hne p Hp. unfold box_points in Hp.
    apply list_elem_of_fmap in Hp as (r & -> & Hr). simpl.
    destruct (Hview r Hr) as (_ & [?|Hin] & _); done.
Qed.

(** ** Tokens (line 91) *)






Lemma split_no_sep sep x : sep ∉ x → split sep x = [x].
Proof.
  induction x as [|c x IH]; simpl; intros Hx; [done|].
  rewrite decide_False by (intros ->; apply Hx; by left).
  rewrite IH; [done|]. intros ?. apply Hx. by right.
Qed.

Lemma split_app_sep sep u rest :
  sep ∉ u → split sep (u ++ sep :: rest) = u :: split sep rest.
Proof.
  induction u as [|c u IH]; simpl; intros Hu.
  - by rewrite decide_True.
  - rewrite decide_False by (intros ->; apply Hu; by left).
    rewrite IH; [done|]. intros ?. apply Hu. by right.
Qed.

(** X7: [x.split(',')] returns one piece more than [x] has commas; a text
    without a comma, the empty text included, is its own single piece. *)
Theorem split_piece_count (sep : char) (x : str) :
  length (split sep x) = S (length (filter (λ c, c = sep) x))
  ∧ (sep ∉ x → split sep x = [x]).
Proof.
  split; [|apply split_no_sep]. unfold str in *.
  induction x as [|c x IH]; [done|].
  rewrite filter_cons. cbn [split]. destruct (decide (c = sep)).
  - cbn [length]. by rewrite IH.
  - destruct (split sep x); [done|]. exact IH.
Qed.

(** X8: [split] undoes [join]: cutting the comma-joined text of pieces
    that hold no comma gives the pieces back. *)
Theorem split_join_inverse (sep : char) (pieces : list str) :
  pieces ≠ [] →
  Forall (λ u, sep ∉ u) pieces →
  split sep (join sep pieces) = pieces.
Proof.
  intros Hne Hall. induction Hall as [|u rest Hu Hrest IH]; [done|].
  destruct rest as [|v rest].
  - simpl. by apply split_no_sep.
  - change (join sep (u :: v :: rest)) with (u ++ sep :: join sep (v :: rest)).
    rewrite split_app_sep by done. by rewrite IH.
Qed.

Lemma split_join_inverse_witness :
  split comma (join comma [py "Python"; py " SQL"; py ""])
  = [py "Python"; py " SQL"; py ""].
Proof.
  apply split_join_inverse; [done|].
  repeat constructor; vm_compute; intros H;
    repeat (apply elem_of_cons in H as [H|H]; [discriminate|]);
    by apply elem_of_nil in H.
Defined.

(** ** Top skills (lines 91-93) *)

Lemma top_skills_take (view : DataFrame) :
  top_skills view = take 10 (stable_sort count_ge (Counter (all_skills view))).
Proof. done. Qed.

Lemma sorted_counter_length l :
  length (stable_sort count_ge (Counter l)) = length (nub l).
Proof.
  by rewrite stable_sort_Permutation, Counter_spec, length_fmap.
Qed.

(** X9: the chart lists [min 10 d] skills, where [d] is the number of
    distinct tokens of the view. *)
Theorem top_skills_length (view : DataFrame) :
  length (top_skills view) = min 10 (length (nub (all_skills view))).
Proof.
  by rewrite top_skills_take, length_take, sorted_counter_length.
Qed.

(** X10: when the view has at most 10 distinct tokens nothing is cut off:
    every token is listed and the counts add up to the number of
    tokens. *)
Theorem top_skills_complete (view : DataFrame) :
  length (nub (all_skills view)) ≤ 10 →
  sum_list (top_skills view).*2 = length (all_skills view)
  ∧ ∀ t, t ∈ all_skills view → t ∈ (top_skills view).*1.
Proof.
  intros Hle. rewrite top_skills_take.
  rewrite take_ge by (rewrite sorted_counter_length; lia).
  split.
  - by rewrite stable_sort_Permutation, Counter_sum.
  - intros t Ht. rewrite stable_sort_Permutation, Counter_keys.
    by apply elem_of_nub.
Qed.

Lemma top_skills_complete_witness :
  sum_list (top_skills scenario_df).*2 = length (all_skills scenario_df)
  ∧ ∀ t, t ∈ all_skills scenario_df → t ∈ (top_skills scenario_df).*1.
Proof. apply top_skills_complete. vm_compute. lia. Defined.

Lemma all_skills_nil (view : DataFrame) :
  all_skills view = [] ↔ ∀ r, r ∈ view → Skills r = None.
Proof.
  rewrite all_skills_unfold. induction view as [|r view IH]; csimpl.
  - split; [|done]. by intros _ r ?%elem_of_nil.
  - destruct (Skills r) as [x|] eqn:Hx.
    + split.
      * intros Happ. apply app_eq_nil in Happ as [Hs _].
        apply fmap_nil_inv in Hs. by apply split_nonempty in Hs.
      * intros H. specialize (H r). rewrite Hx in H.
        discriminate H. by left.
    + simpl. rewrite IH. split.
      * intros H r' [->|?]%elem_of_cons; [done|by apply H].
      * intros H r' Hr'. apply H. by right.
Qed.

Lemma lstrip_blank x : Forall (λ c, isspace c = true) x → lstrip x = [].
Proof. induction 1 as [|c x Hc _ IH]; simpl; [done|]. by rewrite Hc. Qed.

(** X11: the skills chart is empty exactly when every Skills cell of the
    view is missing: a cell that is present always yields a token, and a
    cell of whitespace only yields the empty token. *)
Theorem top_skills_empty_iff (view : DataFrame) :
  (top_skills view = [] ↔ ∀ r, r ∈ view → Skills r = None)
  ∧ length (omap Skills view) ≤ length (all_skills view)
  ∧ ∀ x, Forall (λ c, isspace c = true) x →
         strip <$> split comma x = [[]].
Proof.
  split; [|split]; cycle 2.
  { intros x Hx. rewrite split_no_sep.
    - csimpl. unfold strip. by rewrite (lstrip_blank x Hx).
    - intros Hc. rewrite Forall_forall in Hx. by apply Hx in Hc. }
  - rewrite <- all_skills_nil. split.
    + intros Htop. apply (f_equal length) in Htop.
      rewrite top_skills_take, length_take, sorted_counter_length in Htop.
      destruct (all_skills view) as [|t toks]; [done|].
      simpl in Htop. lia.
    + intros Hnil. by rewrite top_skills_take, Hnil.
  - rewrite all_skills_unfold. induction view as [|r view IH]; csimpl; [done|].
    destruct (Skills r) as [x|]; csimpl; [|done].
    rewrite length_app, length_fmap.
    pose proof (split_nonempty comma x).
    destruct (split comma x); [done|]. simpl. lia.
Qed.

(** ** Counts and missing cells (lines 50, 84-85) *)

Lemma column_length {A} (col : Row → option A) (view : DataFrame) :
  length (omap id (col <$> view)) + isnull_sum col view = length view.
Proof.
  unfold isnull_sum. induction view as [|r view IH]; [done|]. csimpl.
  rewrite filter_cons. destruct (col r) as [w|]; simpl.
  - destruct (decide (Some w = None)); [done|]. simpl. lia.
  - destruct (decide (@None A = None)); [|done]. simpl. lia.
Qed.

(** X12: every row of the view is either counted at its location or is
    one of the rows whose Location is missing: the location counts and
    the missing-value count of the column add up to the number of
    rows. *)
Theorem loc_count_total (view : DataFrame) :
  sum_list (loc_count view).*2 + isnull_sum Location view = length view.
Proof.
  unfold loc_count, value_counts.
  rewrite stable_sort_Permutation, Counter_sum. apply column_length.
Qed.

(** ** Independence of the row order *)









(** ** Range of a mean (lines 71, 112) *)









(** ** Extent of the monthly trend (lines 109-112) *)

(** X16: a trend without dated rows is empty; otherwise it runs from the
    month of the earliest dated row to the month of the latest one, one
    entry per month, so it has as many entries as there are months in
    that span; when all dated rows fall in one month it has that single
    entry. *)
Theorem monthly_trend_span (rows : list (Timestamp * Row)) :
  ((rows = [] ∧ monthly_mean rows = [])
   ∨ ∃ first last,
       first ∈ rows ∧ last ∈ rows
       ∧ (∀ r, r ∈ rows → (period first.1 ≤ period r.1 ≤ period last.1)%Z)
       ∧ (monthly_mean rows).*1
         = seqZ (period first.1) (period last.1 - period first.1 + 1)
       ∧ length (monthly_mean rows)
         = Z.to_nat (period last.1 - period first.1 + 1))
  ∧ ∀ p, rows ≠ [] → (∀ r, r ∈ rows → period r.1 = p) →
         (monthly_mean rows).*1 = [p].
Proof.
  assert (Hspan : rows ≠ [] → ∃ first last,
    first ∈ rows ∧ last ∈ rows
    ∧ (∀ r, r ∈ rows → (period first.1 ≤ period r.1 ≤ period last.1)%Z)
    ∧ (monthly_mean rows).*1
      = seqZ (period first.1) (period last.1 - period first.1 + 1)).
  { intros Hne. rewrite monthly_mean_months.
    destruct rows as [|r0 rows']; [done|].
    set (rows := r0 :: rows').
    change ((λ e : Timestamp * Row, period e.1) <$> rows)
      with (period r0.1 :: ((λ e : Timestamp * Row, period e.1) <$> rows')).
    set (p := period r0.1). set (ps := (λ e, period e.1) <$> rows').
    destruct (foldr_min_spec p ps) as [Hlo_in Hlo].
    destruct (foldr_max_spec p ps) as [Hhi_in Hhi].
    assert (Hps : p :: ps = (λ e : Timestamp * Row, period e.1) <$> rows)
      by done.
    rewrite Hps in Hlo_in, Hhi_in.
    apply list_elem_of_fmap in Hlo_in as (first & Hfirst & Hfirst_in).
    apply list_elem_of_fmap in Hhi_in as (last & Hlast & Hlast_in).
    exists first, last. split; [done|]. split; [done|]. split.
    - intros r Hr.
      assert (Hin : period r.1 ∈ p :: ps).
      { rewrite Hps. apply list_elem_of_fmap. by exists r. }
      specialize (Hlo _ Hin). specialize (Hhi _ Hin).
      rewrite <- Hfirst, <- Hlast. lia.
    - simpl. by rewrite Hfirst, Hlast. }
  split.
  - destruct rows as [|r0 rows'] eqn:Hrows; [by left|]. right.
    destruct Hspan as (first & last & Hf & Hl & Hbetween & Hmonths); [done|].
    exists first, last. repeat split; try done; try apply Hbetween; try done.
    rewrite <- (length_fmap fst), Hmonths. apply length_seqZ.
  - intros p Hne Hall.
    destruct (Hspan Hne) as (first & last & Hf & Hl & _ & ->).
    rewrite (Hall first Hf), (Hall last Hl).
    replace (p - p + 1)%Z with 1%Z by lia. done.
Qed.

Lemma df_time_rows_sublist {A B} (l : list A) (k : list (option B)) :
  (omap (λ p : A * option B, (λ t, (t, p.1)) <$> p.2) (zip l k)).*2
  `sublist_of` l.
Proof.
  revert k. induction l as [|x l IH]; intros k; [done|].
  destruct k as [|[t|] k]; csimpl.
  - apply sublist_nil_l.
  - by apply sublist_skip.
  - by apply sublist_cons.
Qed.

(** X17: whatever the date parser returns, the rows that enter the trend
    are rows of the view, in the order of the view, each at most once per
    occurrence: the trend never sees a row the filters removed. *)
Theorem df_time_rows_of_view
    (to_datetime : list (option str) → list (option Timestamp))
    (view : DataFrame) :
  (df_time to_datetime view).*2 `sublist_of` view
  ∧ length (df_time to_datetime view) ≤ length view.
Proof.
  assert (Hs : (df_time to_datetime view).*2 `sublist_of` view)
    by apply df_time_rows_sublist.
  split; [done|]. apply sublist_length in Hs. by rewrite length_fmap in Hs.
Qed.

(** ** Filtering and the counts *)

Lemma filter_sublist_mono {A} (P : A → Prop) `{!∀ x, Decision (P x)}
    (l k : list A) :
  l `sublist_of` k → filter P l `sublist_of` filter P k.
Proof.
  induction 1 as [|x l k Hs IH|x l k Hs IH]; [done|..]; rewrite !filter_cons.
  - destruct (decide (P x)); [by apply sublist_skip|done].
  - destruct (decide (P x)); [by apply sublist_cons|done].
Qed.

Lemma all_skills_sublist (view df : DataFrame) :
  view `sublist_of` df → all_skills view `sublist_of` all_skills df.
Proof.
  rewrite !all_skills_unfold.
  induction 1 as [|r l k Hs IH|r l k Hs IH]; csimpl; [done|..].
  - by apply sublist_app.
  - by apply sublist_inserts_l.
Qed.

Lemma elem_of_loc_count (view : DataFrame) k n :
  (k, n) ∈ loc_count view ↔
  (∃ r, r ∈ view ∧ Location r = Some k)
  ∧ n = length (filter (λ r, Location r = Some k) view).
Proof.
  unfold loc_count, value_counts.
  rewrite stable_sort_Permutation, elem_of_Counter. simpl.
  by rewrite elem_of_column, occurrences_column.
Qed.

(** X18: filtering never raises a count: a location counted in the view
    is counted in the table with at least that number, and every skill
    token occurs in the view at most as often as in the table. *)
Theorem filter_lowers_counts (df : DataFrame) (sj si sl : list (option str)) :
  let view := filtered_df df sj si sl in
  (∀ k n, (k, n) ∈ loc_count view →
     ∃ n', (k, n') ∈ loc_count df ∧ n ≤ n')
  ∧ (∀ t, occurrences t (all_skills view) ≤ occurrences t (all_skills df)).
Proof.
  intros view.
  assert (Hs : view `sublist_of` df).
  { unfold view. rewrite filtered_df_filter. apply sublist_filter. }
  split.
  - intros k n [(r & Hr & Hk) ->]%elem_of_loc_count.
    exists (length (filter (λ r, Location r = Some k) df)). split.
    + apply elem_of_loc_count. split; [|done]. exists r. split; [|done].
      by eapply sublist_subseteq.
    + by apply sublist_length, filter_sublist_mono.
  - intros t. unfold occurrences.
    by apply sublist_length, filter_sublist_mono, all_skills_sublist.
Qed.

(** ** The bucket key of the trend (line 112) *)

(** X19: for dates with a month between 1 and 12, two dates share a
    bucket exactly when they have the same year and month, and buckets
    are ordered as the calendar months are. *)
Theorem period_is_calendar_month (t1 t2 : Timestamp) :
  (1 ≤ month t1 ≤ 12)%Z →
  (1 ≤ month t2 ≤ 12)%Z →
  (period t1 = period t2 ↔ year t1 = year t2 ∧ month t1 = month t2)
  ∧ ((period t1 < period t2)%Z ↔
     (year t1 < year t2)%Z
     ∨ (year t1 = year t2 ∧ (month t1 < month t2)%Z)).
Proof. unfold period. intros H1 H2. lia. Qed.

Lemma period_is_calendar_month_witness :
  (period (mkTimestamp 2023 12 31) = period (mkTimestamp 2024 1 1) ↔
   2023%Z = 2024%Z ∧ 12%Z = 1%Z)
  ∧ ((period (mkTimestamp 2023 12 31) < period (mkTimestamp 2024 1 1))%Z ↔
     (2023 < 2024)%Z ∨ (2023%Z = 2024%Z ∧ (12 < 1)%Z)).
Proof.
  apply (period_is_calendar_month (mkTimestamp 2023 12 31)
           (mkTimestamp 2024 1 1)); simpl; lia.
Defined.
